(** * Barky: a shallow embedding of the realtime session core of App.tsx

    JavaScript strings are modelled as lists of UTF-16 code units ([jsstring]),
    audio clock times and durations as integer sample-frame counts at the
    24 kHz output rate, and a JavaScript value of an enum type that may be
    [undefined] at run time as [option]. *)

From Stdlib Require Import List ZArith Lia Bool String Ascii Sorted DecimalString.
Import ListNotations.
Open Scope Z_scope.

Definition jsstring := list Z.

(** String literal helper: an ASCII Rocq string as UTF-16 code units. *)
Fixpoint js (s : string) : jsstring :=
  match s with
  | EmptyString => []
  | String c r => Z.of_nat (nat_of_ascii c) :: js r
  end.

(** ** types.ts *)

(** [export enum DogState { IDLE, LISTENING, THINKING, SPEAKING, HAPPY, ANGRY }] *)
Inductive DogState := IDLE | LISTENING | THINKING | SPEAKING | HAPPY | ANGRY.

Definition DogState_eqb (a b : DogState) : bool :=
  match a, b with
  | IDLE, IDLE | LISTENING, LISTENING | THINKING, THINKING
  | SPEAKING, SPEAKING | HAPPY, HAPPY | ANGRY, ANGRY => true
  | _, _ => false
  end.

(** The enum object emitted for [DogState]: its members in declaration order. *)
Definition DogState_members : list (string * DogState) :=
  [("IDLE", IDLE); ("LISTENING", LISTENING); ("THINKING", THINKING);
   ("SPEAKING", SPEAKING); ("HAPPY", HAPPY); ("ANGRY", ANGRY)]%string.

(** Property access [DogState.NAME]: [undefined] ([None]) for a missing member. *)
Fixpoint lookup_member (name : string) (ms : list (string * DogState)) : option DogState :=
  match ms with
  | [] => None
  | (n, v) :: r => if String.eqb n name then Some v else lookup_member name r
  end.

Definition DogState_get (name : string) : option DogState :=
  lookup_member name DogState_members.

(** A run-time value held in the [dogState] React state. *)
Definition dogval := option DogState.

(** Strict equality [===] on such values. *)
Definition dogval_eqb (a b : dogval) : bool :=
  match a, b with
  | None, None => true
  | Some x, Some y => DogState_eqb x y
  | _, _ => false
  end.

Definition DS_IDLE : dogval := DogState_get "IDLE".
Definition DS_LISTENING : dogval := DogState_get "LISTENING".
Definition DS_SPEAKING : dogval := DogState_get "SPEAKING".
Definition DS_HAPPY : dogval := DogState_get "HAPPY".
Definition DS_ANGRY : dogval := DogState_get "ANGRY".
Definition DS_CONNECTING : dogval := DogState_get "CONNECTING".

Record WebSource := { uri : jsstring; title : jsstring }.

Inductive Sender := user | dog.

Definition Sender_eqb (a b : Sender) : bool :=
  match a, b with user, user | dog, dog => true | _, _ => false end.

Record TranscriptionEntry := {
  text : jsstring;
  sender : Sender;
  timestamp : Z;
  webSources : option (list WebSource)
}.

Inductive BoardVisualType :=
  bullet_list | step_by_step | comparison | code_snippet | summary_card | bar_chart.

Record BoardItem := { heading : option jsstring; content : jsstring }.

Record BoardContent := {
  board_title : jsstring;
  visualType : BoardVisualType;
  items : list BoardItem;
  isVisible : bool
}.

(** ** Playback scheduling (the [nextStartTimeRef] / [activeSourcesRef] pair) *)

Record Playback := {
  nextStartTime : Z;          (** nextStartTimeRef.current *)
  activeSources : list nat;   (** activeSourcesRef.current, in insertion order *)
  halted : list nat           (** source nodes on which [stop()] took effect *)
}.

(** Lines 221-225 of App.tsx, for a decoded buffer of [frames] frames:
    [startTime = Math.max(nextStartTimeRef.current, ctx.currentTime)],
    [source.start(startTime)],
    [nextStartTimeRef.current = startTime + buffer.duration],
    [activeSourcesRef.current.add(source)].
    Returns the new refs and the scheduled (start, end) interval. *)
Definition scheduleSource (p : Playback) (id : nat) (currentTime : Z) (frames : nat)
  : Playback * (Z * Z) :=
  let startTime := Z.max p.(nextStartTime) currentTime in
  let duration := Z.of_nat frames in
  ({| nextStartTime := startTime + duration;
      activeSources := p.(activeSources) ++ [id];
      halted := p.(halted) |},
   (startTime, startTime + duration)).

(** Chunks in the order their decodes complete: (node id, ctx.currentTime, frames). *)
Fixpoint scheduleSources (p : Playback) (chunks : list (nat * Z * nat))
  : Playback * list (Z * Z) :=
  match chunks with
  | [] => (p, [])
  | (id, now, frames) :: rest =>
      let '(p1, iv) := scheduleSource p id now frames in
      let '(p2, ivs) := scheduleSources p1 rest in
      (p2, iv :: ivs)
  end.

(** Later interval [b] starts no earlier than [a] starts and ends. *)
Definition after (a b : Z * Z) : Prop := fst a <= fst b /\ snd a <= fst b.

(** ** A small exception monad for code that may throw *)

Inductive DOMException := InvalidStateError.

Definition Exc (A : Type) : Type := (A + DOMException)%type.

Definition ret {A} (a : A) : Exc A := inl a.
Definition raise {A} (e : DOMException) : Exc A := inr e.
Definition bind {A B} (m : Exc A) (k : A -> Exc B) : Exc B :=
  match m with inl a => k a | inr e => inr e end.
(** [try { m } catch (e) { h(e) }] *)
Definition try_catch {A} (m : Exc A) (h : DOMException -> Exc A) : Exc A :=
  match m with inl a => inl a | inr e => h e end.

Notation "x <- m ;; k" := (bind m (fun x => k)) (at level 61, m at next level, right associativity).

(** [Set.prototype.forEach] with a callback that may throw. *)
Fixpoint forEach {S} (f : S -> nat -> Exc S) (l : list nat) (s : S) : Exc S :=
  match l with
  | [] => ret s
  | x :: r => s' <- f s x ;; forEach f r s'
  end.

Section Audio.

(** [AudioBufferSourceNode.stop()] on a node: may throw (for instance on a
    node in a state the browser rejects); its outcome is left arbitrary. *)
Variable source_stop : nat -> Exc unit.

(** [try { source.stop(); } catch (e) {}] *)
Definition stopSource (p : Playback) (id : nat) : Exc Playback :=
  try_catch
    (_ <- source_stop id ;;
     ret {| nextStartTime := p.(nextStartTime); activeSources := p.(activeSources);
            halted := p.(halted) ++ [id] |})
    (fun _ => ret p).

(** [stopAllAudio] (App.tsx, lines 100-106). *)
Definition stopAllAudio (p : Playback) : Exc Playback :=
  p1 <- forEach stopSource p.(activeSources) p ;;
  ret {| nextStartTime := 0; activeSources := []; halted := p1.(halted) |}.

End Audio.

(** ** Transcript updates (setTranscriptions updaters in handleSessionMessage) *)

(** [prev[prev.length - 1]] *)
Fixpoint lastEntry {A} (l : list A) : option A :=
  match l with
  | [] => None
  | [x] => Some x
  | _ :: r => lastEntry r
  end.

Definition with_text (e : TranscriptionEntry) (t : jsstring) : TranscriptionEntry :=
  {| text := t; sender := e.(sender); timestamp := e.(timestamp); webSources := e.(webSources) |}.

Definition with_sources (e : TranscriptionEntry) (ws : list WebSource) : TranscriptionEntry :=
  {| text := e.(text); sender := e.(sender); timestamp := e.(timestamp); webSources := Some ws |}.

(** The updater shared by output (sender ['dog']) and input (sender ['user'])
    transcription: append to the last entry if it has sender [who], else start
    a new entry [{ text, sender, timestamp: Date.now() }]. *)
Definition appendFragment (who : Sender) (t : jsstring) (now : Z)
  (prev : list TranscriptionEntry) : list TranscriptionEntry :=
  match lastEntry prev with
  | Some last =>
      if Sender_eqb last.(sender) who
      then removelast prev ++ [with_text last (last.(text) ++ t)]
      else prev ++ [{| text := t; sender := who; timestamp := now; webSources := None |}]
  | None => prev ++ [{| text := t; sender := who; timestamp := now; webSources := None |}]
  end.

(** [if (serverContent?.outputTranscription?.text) { ... }]: an empty string is falsy. *)
Definition onOutputTranscription (t : option jsstring) (now : Z)
  (prev : list TranscriptionEntry) : list TranscriptionEntry :=
  match t with
  | Some ((_ :: _) as t') => appendFragment dog t' now prev
  | _ => prev
  end.

(** Output-transcription fragments in arrival order, each with its [Date.now()]. *)
Fixpoint onOutputTranscriptions (fs : list (jsstring * Z))
  (prev : list TranscriptionEntry) : list TranscriptionEntry :=
  match fs with
  | [] => prev
  | (t, now) :: r => onOutputTranscriptions r (onOutputTranscription (Some t) now prev)
  end.

Definition jsstring_eqb (a b : jsstring) : bool := if list_eq_dec Z.eq_dec a b then true else false.

(** The grounding updater (lines 176-185), for a non-empty [sources]. *)
Definition mergeSources (sources : list WebSource) (prev : list TranscriptionEntry)
  : list TranscriptionEntry :=
  match lastEntry prev with
  | Some last =>
      if Sender_eqb last.(sender) dog then
        let existing := match last.(webSources) with Some ws => ws | None => [] end in
        let newSources :=
          filter (fun s => negb (existsb (fun e => jsstring_eqb e.(uri) s.(uri)) existing)) sources in
        match newSources with
        | [] => prev
        | _ => removelast prev ++ [with_sources last (existing ++ newSources)]
        end
      else prev
  | None => prev
  end.

(** A grounding chunk: its [web] field, [undefined] when absent. *)
Definition GroundingChunk := option WebSource.

(** Lines 168-187: [groundingChunks.map(c => c.web).filter(w => w).map(...)],
    then the updater only when [sources.length > 0]. *)
Definition onGroundingMetadata (chunks : option (list GroundingChunk))
  (prev : list TranscriptionEntry) : list TranscriptionEntry :=
  match chunks with
  | None => prev
  | Some cs =>
      let sources := map (fun w => {| uri := w.(uri); title := w.(title) |})
                         (flat_map (fun c => match c with Some w => [w] | None => [] end) cs) in
      match sources with
      | [] => prev
      | _ => mergeSources sources prev
      end
  end.

(** [/[\u0900-\u097F]/.test(text)] on UTF-16 code units. *)
Definition hasDevanagari (t : jsstring) : bool :=
  existsb (fun c => (2304 <=? c) && (c <=? 2431)) t.

(** Lines 189-203. *)
Definition onInputTranscription (t : option jsstring) (now : Z)
  (prev : list TranscriptionEntry) : list TranscriptionEntry :=
  match t with
  | Some ((_ :: _) as t') =>
      if negb (hasDevanagari t') then appendFragment user t' now prev else prev
  | _ => prev
  end.

(** ** Board Renderer sanitizer (TeacherBoard [cleanContent]) *)

(** The ECMAScript [\s] class (WhiteSpace and LineTerminator code units). *)
Definition is_ws (c : Z) : bool :=
  ((9 <=? c) && (c <=? 13)) || (c =? 32) || (c =? 160) || (c =? 5760)
  || ((8192 <=? c) && (c <=? 8202)) || (c =? 8232) || (c =? 8233)
  || (c =? 8239) || (c =? 8287) || (c =? 12288) || (c =? 65279).

(** Under the [i] flag (non-unicode mode) a lower-case ASCII letter [p] of the
    pattern matches [p] and its upper-case form only. *)
Definition ci_eq (p c : Z) : bool := (c =? p) || (c =? p - 32).

(** Match pattern [pat] at the start of [s]; the remainder on success. *)
Fixpoint match_ci (pat s : jsstring) : option jsstring :=
  match pat, s with
  | [], _ => Some s
  | p :: ps, c :: cs => if ci_eq p c then match_ci ps cs else None
  | _ :: _, [] => None
  end.

(** [(detail|content|value|description|step)], tried left to right. *)
Definition labels : list jsstring :=
  [js "detail"; js "content"; js "value"; js "description"; js "step"].

Fixpoint match_alt (alts : list jsstring) (s : jsstring) : option jsstring :=
  match alts with
  | [] => None
  | a :: r => match match_ci a s with Some rest => Some rest | None => match_alt r s end
  end.

(** Greedy [\s*]. *)
Fixpoint skip_ws (s : jsstring) : jsstring :=
  match s with
  | c :: r => if is_ws c then skip_ws r else s
  | [] => []
  end.

(** The optional group [(\s*:)?]: taken when a colon follows the spaces. *)
Definition opt_colon (s : jsstring) : jsstring :=
  match skip_ws s with
  | c :: r => if c =? 58 then r else s
  | [] => s
  end.

(** [text.replace(/^(detail|content|value|description|step)(\s*:)?\s*/i, '')]
    preceded by [if (!text) return ''] (lines 16-20). *)
Definition cleanContent (t : jsstring) : jsstring :=
  match t with
  | [] => []
  | _ => match match_alt labels t with
         | Some rest => skip_ws (opt_colon rest)
         | None => t
         end
  end.

Example cleanContent_detail : cleanContent (js "Detail: 42") = js "42".
Proof. reflexivity. Qed.
Example cleanContent_content : cleanContent (js "content:x") = js "x".
Proof. reflexivity. Qed.
Example cleanContent_none : cleanContent (js "no-prefix") = js "no-prefix".
Proof. reflexivity. Qed.
Example cleanContent_spaces : cleanContent (js "STEP  :  go") = js "go".
Proof. reflexivity. Qed.

(** ** Board item accessors (TeacherBoard [getItemContent], [getItemHeading])

    The items reach the board as [any]: a JSON value of the tool-call
    arguments. Numbers are the integral ones. *)
#[warnings="-register-all"]
Inductive jsval :=
| JUndefined
| JNull
| JBool (b : bool)
| JNum (n : Z)
| JStr (s : jsstring)
| JArr (xs : list jsval)
| JObj (fields : list (string * jsval)).

(** JavaScript truthiness. *)
Definition truthy (v : jsval) : bool :=
  match v with
  | JUndefined | JNull => false
  | JBool b => b
  | JNum n => negb (n =? 0)
  | JStr s => match s with [] => false | _ => true end
  | JArr _ | JObj _ => true
  end.

(** [a || b] *)
Definition js_or (a b : jsval) : jsval := if truthy a then a else b.

(** Property read [v.k] of an own data property of a JSON value. *)
Definition get (v : jsval) (k : string) : jsval :=
  match v with
  | JObj fs => match find (fun f => String.eqb (fst f) k) fs with
               | Some (_, x) => x
               | None => JUndefined
               end
  | _ => JUndefined
  end.

(** [String(n)] for an integral number. *)
Definition number_to_string (n : Z) : jsstring := js (NilZero.string_of_int (Z.to_int n)).

(** Calling [text.replace] on a value that is not a string: JSON values other
    than strings have no callable [replace]. *)
Inductive TypeError := NotAFunction.

(** [cleanContent] on the value it is given at run time (lines 16-20). *)
Definition cleanContentV (v : jsval) : jsstring + TypeError :=
  if negb (truthy v) then inl []
  else match v with
       | JStr t => inl (cleanContent t)
       | _ => inr NotAFunction
       end.

(** [getItemContent] (lines 22-30). *)
Definition getItemContent (item : jsval) : jsstring + TypeError :=
  match item with
  | JNull | JUndefined => inl []
  | JStr t => inl (cleanContent t)
  | JNum n => inl (number_to_string n)
  | _ =>
      let raw := js_or (js_or (js_or (js_or (js_or (get item "content") (get item "detail"))
                   (get item "text")) (get item "value")) (get item "description")) (JStr []) in
      cleanContentV raw
  end.

(** [getItemHeading] (lines 32-36). *)
Definition getItemHeading (item : jsval) : jsstring + TypeError :=
  match item with
  | JStr _ | JNum _ => inl []
  | _ =>
      if negb (truthy item) then inl []
      else
        let raw := js_or (js_or (js_or (js_or (js_or (get item "heading") (get item "title"))
                     (get item "label")) (get item "key")) (get item "name")) (JStr []) in
        cleanContentV raw
  end.

(** A [BoardItem] as the tool call delivers it: [content] and, when given,
    [heading], both strings. *)
Definition item_to_jsval (b : BoardItem) : jsval :=
  JObj (("content"%string, JStr b.(content)) ::
        match b.(heading) with Some h => [("heading"%string, JStr h)] | None => [] end).

(** ** The App component's state *)

Record App := {
  dogState : dogval;
  barkCount : Z;
  inputText : jsstring;
  boardContent : BoardContent;
  transcriptions : list TranscriptionEntry;
  playback : Playback;            (** nextStartTimeRef, activeSourcesRef *)
  hasOutputCtx : bool;            (** outputAudioContextRef.current !== null *)
  hasSession : bool;              (** sessionPromiseRef.current !== null *)
  sent : list jsstring            (** texts passed to [sendRealtimeInput({ text })] *)
}.

Definition set_dogState (s : App) (v : dogval) : App :=
  {| dogState := v; barkCount := s.(barkCount); inputText := s.(inputText);
     boardContent := s.(boardContent); transcriptions := s.(transcriptions);
     playback := s.(playback); hasOutputCtx := s.(hasOutputCtx);
     hasSession := s.(hasSession); sent := s.(sent) |}.

Definition set_barkCount (s : App) (n : Z) : App :=
  {| dogState := s.(dogState); barkCount := n; inputText := s.(inputText);
     boardContent := s.(boardContent); transcriptions := s.(transcriptions);
     playback := s.(playback); hasOutputCtx := s.(hasOutputCtx);
     hasSession := s.(hasSession); sent := s.(sent) |}.

Definition set_inputText (s : App) (t : jsstring) : App :=
  {| dogState := s.(dogState); barkCount := s.(barkCount); inputText := t;
     boardContent := s.(boardContent); transcriptions := s.(transcriptions);
     playback := s.(playback); hasOutputCtx := s.(hasOutputCtx);
     hasSession := s.(hasSession); sent := s.(sent) |}.

(** [setBoardContent(f)] with a functional updater. *)
Definition update_board (s : App) (f : BoardContent -> BoardContent) : App :=
  {| dogState := s.(dogState); barkCount := s.(barkCount); inputText := s.(inputText);
     boardContent := f s.(boardContent); transcriptions := s.(transcriptions);
     playback := s.(playback); hasOutputCtx := s.(hasOutputCtx);
     hasSession := s.(hasSession); sent := s.(sent) |}.

(** [setTranscriptions(f)] with a functional updater. *)
Definition update_transcriptions (s : App)
  (f : list TranscriptionEntry -> list TranscriptionEntry) : App :=
  {| dogState := s.(dogState); barkCount := s.(barkCount); inputText := s.(inputText);
     boardContent := s.(boardContent); transcriptions := f s.(transcriptions);
     playback := s.(playback); hasOutputCtx := s.(hasOutputCtx);
     hasSession := s.(hasSession); sent := s.(sent) |}.

Definition set_playback (s : App) (p : Playback) : App :=
  {| dogState := s.(dogState); barkCount := s.(barkCount); inputText := s.(inputText);
     boardContent := s.(boardContent); transcriptions := s.(transcriptions);
     playback := p; hasOutputCtx := s.(hasOutputCtx);
     hasSession := s.(hasSession); sent := s.(sent) |}.

Definition set_connection (s : App) (ctx session : bool) : App :=
  {| dogState := s.(dogState); barkCount := s.(barkCount); inputText := s.(inputText);
     boardContent := s.(boardContent); transcriptions := s.(transcriptions);
     playback := s.(playback); hasOutputCtx := ctx;
     hasSession := session; sent := s.(sent) |}.

(** [sessionPromiseRef.current?.then(s => s.sendRealtimeInput({ text }))]:
    dropped when there is no session. *)
Definition sendText (s : App) (t : jsstring) : App :=
  {| dogState := s.(dogState); barkCount := s.(barkCount); inputText := s.(inputText);
     boardContent := s.(boardContent); transcriptions := s.(transcriptions);
     playback := s.(playback); hasOutputCtx := s.(hasOutputCtx);
     hasSession := s.(hasSession);
     sent := if s.(hasSession) then s.(sent) ++ [t] else s.(sent) |}.

(** [prev => ({ ...prev, isVisible: false })] *)
Definition hideBoard (b : BoardContent) : BoardContent :=
  {| board_title := b.(board_title); visualType := b.(visualType);
     items := b.(items); isVisible := false |}.

(** [String.prototype.includes] *)
Fixpoint prefixb (p s : jsstring) : bool :=
  match p, s with
  | [], _ => true
  | x :: p', y :: s' => (x =? y) && prefixb p' s'
  | _ :: _, [] => false
  end.

Fixpoint includes (s sub : jsstring) : bool :=
  prefixb sub s || match s with [] => false | _ :: s' => includes s' sub end.

(** [String.prototype.trim() === ''] *)
Definition trim_empty (t : jsstring) : bool := forallb is_ws t.

Definition annoyedText : jsstring := js "(User is annoying you. Refuse to bark. Say No!)".

(** The tail of [handleAction] after the annoyance logic (lines 392-402). *)
Definition dispatchAction (s : App) (t : jsstring) (mood : dogval) (now : Z) : App :=
  let s1 := set_dogState s mood in
  let s2 := update_board s1 hideBoard in
  let s3 := update_transcriptions s2
              (fun prev => prev ++ [{| text := t; sender := user; timestamp := now;
                                       webSources := None |}]) in
  sendText s3 t.

(** [handleAction(text, mood)] (lines 376-403). *)
Definition handleAction (s : App) (t : jsstring) (mood : dogval) (now : Z) : App :=
  if dogval_eqb s.(dogState) DS_IDLE || dogval_eqb s.(dogState) DS_CONNECTING then s
  else if includes t (js "Bark") then
    let newCount := s.(barkCount) + 1 in
    let s1 := set_barkCount s newCount in
    if 3 <=? newCount then sendText (set_dogState s1 DS_ANGRY) annoyedText
    else dispatchAction s1 t mood now
  else dispatchAction (set_barkCount s 0) t mood now.

(** [handleSendMessage()] (lines 405-423). *)
Definition handleSendMessage (s : App) (now : Z) : App :=
  if trim_empty s.(inputText) || dogval_eqb s.(dogState) DS_IDLE
     || dogval_eqb s.(dogState) DS_CONNECTING then s
  else
    let t := s.(inputText) in
    let s1 := set_inputText s [] in
    let s2 := update_board s1 hideBoard in
    let s3 := update_transcriptions s2
                (fun prev => prev ++ [{| text := t; sender := user; timestamp := now;
                                         webSources := None |}]) in
    sendText s3 t.

(** TeacherBoard [onClose] (line 454). *)
Definition closeBoard (s : App) : App := update_board s hideBoard.

(** ** Server messages ([handleSessionMessage], lines 125-247) *)

Record BoardArgs := { arg_title : jsstring; arg_visualType : BoardVisualType;
                      arg_items : list BoardItem }.

Record FunctionCall := { call_id : jsstring; call_name : jsstring; call_args : BoardArgs }.

Record ServerContent := {
  outputTranscription : option jsstring;
  groundingChunks : option (list GroundingChunk);
  inputTranscription : option jsstring;
  (** [modelTurn.parts[0].inlineData.data] when truthy, given by the frame
      count of the buffer it decodes to *)
  audioData : option nat;
  turnComplete : bool;
  interrupted : bool
}.

Record Message := {
  toolCall : option (list FunctionCall);   (** [message.toolCall.functionCalls] *)
  serverContent : option ServerContent
}.

(** Lines 129-154 (the tool acknowledgment sent back is not part of the state). *)
Definition onToolCall (tc : option (list FunctionCall)) (s : App) : App :=
  match tc with
  | Some (call :: _) =>
      if jsstring_eqb call.(call_name) (js "updateBoard") then
        update_board s (fun _ =>
          {| board_title := call.(call_args).(arg_title);
             visualType := call.(call_args).(arg_visualType);
             items := call.(call_args).(arg_items); isVisible := true |})
      else s
  | _ => s
  end.

(** [setDogState(prev => prev === DogState.ANGRY ? DogState.ANGRY : DogState.SPEAKING)] *)
Definition moodOnChunk (prev : dogval) : dogval :=
  if dogval_eqb prev DS_ANGRY then DS_ANGRY else DS_SPEAKING.

(** [setDogState(prev => prev === DogState.ANGRY ? DogState.LISTENING : DogState.LISTENING)] *)
Definition moodOnDrain (prev : dogval) : dogval :=
  if dogval_eqb prev DS_ANGRY then DS_LISTENING else DS_LISTENING.

Section Session.

Variable source_stop : nat -> Exc unit.

(** Lines 236-246, run after the audio part. *)
Definition onTurnMarkers (sc : ServerContent) (s : App) : Exc App :=
  let s1 := if sc.(turnComplete) then
              match s.(playback).(activeSources) with
              | [] => set_dogState s (moodOnDrain s.(dogState))
              | _ => s
              end
            else s in
  if sc.(interrupted) then
    p <- stopAllAudio source_stop s1.(playback) ;;
    ret (set_dogState (set_playback s1 p) DS_LISTENING)
  else ret s1.

(** Where a message leaves the handler: finished, or suspended at
    [await decodeAudioData(...)]. *)
Inductive Progress :=
| Finished (r : Exc App)
| Suspended (s : App).

(** The part of [handleSessionMessage] that runs when the message arrives. *)
Definition handleSessionMessage (s : App) (m : Message) (now : Z) : Progress :=
  let s1 := onToolCall m.(toolCall) s in
  match m.(serverContent) with
  | None => Finished (ret s1)
  | Some sc =>
      let s2 := update_transcriptions s1 (fun prev =>
                  onInputTranscription sc.(inputTranscription) now
                    (onGroundingMetadata sc.(groundingChunks)
                      (onOutputTranscription sc.(outputTranscription) now prev))) in
      match sc.(audioData) with
      | Some _ =>
          if s2.(hasOutputCtx) then Suspended (set_dogState s2 (moodOnChunk s2.(dogState)))
          else Finished (onTurnMarkers sc s2)
      | None => Finished (onTurnMarkers sc s2)
      end
  end.

(** The rest, once the decode of the [frames]-frame buffer resolves; the new
    source node is [id] and the output clock reads [currentTime]. *)
Definition resumeAfterDecode (s : App) (sc : ServerContent) (id : nat)
  (currentTime : Z) (frames : nat) : Exc App :=
  let '(p, _) := scheduleSource s.(playback) id currentTime frames in
  onTurnMarkers sc (set_playback s p).

(** [source.onended] (lines 227-233). *)
Definition onEnded (s : App) (id : nat) : App :=
  let p := s.(playback) in
  let p1 := {| nextStartTime := p.(nextStartTime);
               activeSources := remove Nat.eq_dec id p.(activeSources);
               halted := p.(halted) |} in
  let s1 := set_playback s p1 in
  match p1.(activeSources) with
  | [] => set_dogState s1 (moodOnDrain s1.(dogState))
  | _ => s1
  end.

(** [cleanupSession] (lines 108-123). *)
Definition cleanupSession (s : App) : Exc App :=
  p <- stopAllAudio source_stop s.(playback) ;;
  ret (set_connection (set_playback s p) false false).

(** [startSession] up to the [ai.live.connect] call (lines 249-374);
    [apiKey] is whether a key is configured. *)
Definition startSession (apiKey : bool) (s : App) : Exc App :=
  if apiKey then
    s1 <- cleanupSession s ;;
    let s2 := set_dogState s1 DS_CONNECTING in
    ret (set_connection s2 true true)
  else
    s1 <- cleanupSession (set_dogState s DS_IDLE) ;; ret s1.

(** [onopen] (line 334). *)
Definition onOpen (s : App) : App := set_dogState s DS_LISTENING.

(** [onerror] / [onclose] (lines 353-364). *)
Definition onClose (s : App) : Exc App := cleanupSession (set_dogState s DS_IDLE).

End Session.

(** The initial state ([useState] defaults and refs). *)
Definition initialApp : App :=
  {| dogState := DS_IDLE; barkCount := 0; inputText := [];
     boardContent := {| board_title := []; visualType := bullet_list; items := [];
                        isVisible := false |};
     transcriptions := [];
     playback := {| nextStartTime := 0; activeSources := []; halted := [] |};
     hasOutputCtx := false; hasSession := false; sent := [] |}.

(** ** The component as an event-driven machine *)

(** The scripted-action buttons (lines 496, 504, 512). *)
Inductive Button := Treat | Chart | GoodBoy.

Definition buttonAction (b : Button) : jsstring * dogval :=
  match b with
  | Treat => (js "Do you want a treat?", DS_HAPPY)
  | Chart => (js "Show me a chart of top 3 fastest animals", DS_SPEAKING)
  | GoodBoy => (js "Who is a good boy?", DS_HAPPY)
  end.

Inductive Event :=
| EvClick (b : Button) (now : Z)             (** a scripted-action button *)
| EvType (t : jsstring)                      (** [onChange]: [setInputText] *)
| EvSend (now : Z)                           (** send button or Enter *)
| EvCloseBoard                               (** TeacherBoard [onClose] *)
| EvStart (apiKey : bool)                    (** click on the sleeping dog *)
| EvOpen                                     (** session [onopen] *)
| EvSessionEnd                               (** session [onerror] or [onclose] *)
| EvMessage (m : Message) (now : Z)          (** session [onmessage] *)
| EvDecoded (sc : ServerContent) (id : nat) (currentTime : Z) (frames : nat)
                                             (** a suspended [onmessage] resumes *)
| EvEnded (id : nat)                         (** [source.onended] *)
| EvWatchdog (silent : bool)                 (** 2 s interval; [audioLevel < 0.01] *)
| EvMoodTimer.                               (** 3 s timeout after HAPPY or ANGRY *)

Section Machine.

Variable source_stop : nat -> Exc unit.

Definition step (s : App) (e : Event) : Exc App :=
  match e with
  | EvClick b now => ret (handleAction s (fst (buttonAction b)) (snd (buttonAction b)) now)
  | EvType t => ret (set_inputText s t)
  | EvSend now => ret (handleSendMessage s now)
  | EvCloseBoard => ret (closeBoard s)
  | EvStart apiKey =>
      if dogval_eqb s.(dogState) DS_IDLE then startSession source_stop apiKey s else ret s
  | EvOpen => ret (onOpen s)
  | EvSessionEnd => onClose source_stop s
  | EvMessage m now =>
      match handleSessionMessage source_stop s m now with
      | Finished r => r
      | Suspended s' => ret s'
      end
  | EvDecoded sc id t frames => resumeAfterDecode source_stop s sc id t frames
  | EvEnded id => ret (onEnded s id)
  | EvWatchdog silent =>
      if dogval_eqb s.(dogState) DS_SPEAKING && silent
         && match s.(playback).(activeSources) with [] => true | _ => false end
      then ret (set_dogState s DS_LISTENING) else ret s
  | EvMoodTimer =>
      if dogval_eqb s.(dogState) DS_HAPPY || dogval_eqb s.(dogState) DS_ANGRY
      then ret (set_dogState s DS_LISTENING) else ret s
  end.

Fixpoint run (s : App) (es : list Event) : Exc App :=
  match es with
  | [] => ret s
  | e :: r => s' <- step s e ;; run s' r
  end.

End Machine.

(** A scripted action or a typed message. *)
Definition is_user_input (e : Event) : bool :=
  match e with EvClick _ _ | EvSend _ => true | _ => false end.

(** An event that carries a tool call. *)
Definition is_tool_call (e : Event) : bool :=
  match e with
  | EvMessage m _ => match m.(toolCall) with Some _ => true | None => false end
  | _ => false
  end.

(** * Properties *)

(** ** Playback scheduling *)

Lemma scheduleSources_starts_after (chunks : list (nat * Z * nat)) :
  forall p, Forall (fun iv => p.(nextStartTime) <= fst iv) (snd (scheduleSources p chunks)).
Proof.
  induction chunks as [|[[id now] frames] rest IH]; intros p; simpl; [constructor|].
  specialize (IH {| nextStartTime := Z.max (nextStartTime p) now + Z.of_nat frames;
                    activeSources := activeSources p ++ [id]; halted := halted p |}).
  destruct (scheduleSources _ rest) as [p2 ivs] eqn:E; simpl in *.
  constructor; simpl; [lia|].
  eapply Forall_impl; [|exact IH]. simpl; intros; lia.
Qed.

(** C1: each chunk starts at [max(watermark, ctx.currentTime)] and the
    watermark becomes that start plus the chunk's duration; for any sequence
    of chunks, in whatever order their decodes complete, every scheduled
    interval starts no earlier than each earlier one starts and ends. *)
Theorem scheduler_ordered_no_overlap :
  (forall p id now frames,
      fst (snd (scheduleSource p id now frames)) = Z.max p.(nextStartTime) now /\
      (fst (scheduleSource p id now frames)).(nextStartTime)
        = Z.max p.(nextStartTime) now + Z.of_nat frames) /\
  (forall p chunks, StronglySorted after (snd (scheduleSources p chunks))).
Proof.
  split; [intros; simpl; split; reflexivity|].
  intros p chunks; revert p.
  induction chunks as [|[[id now] frames] rest IH]; intros p; simpl; [constructor|].
  pose proof (scheduleSources_starts_after rest
    {| nextStartTime := Z.max (nextStartTime p) now + Z.of_nat frames;
       activeSources := activeSources p ++ [id]; halted := halted p |}) as Hs.
  specialize (IH {| nextStartTime := Z.max (nextStartTime p) now + Z.of_nat frames;
                    activeSources := activeSources p ++ [id]; halted := halted p |}).
  destruct (scheduleSources _ rest) as [p2 ivs] eqn:E; simpl in *.
  constructor; [exact IH|].
  eapply Forall_impl; [|exact Hs]. unfold after; simpl; intros; lia.
Qed.

(** ** Avatar mood around audio chunks *)

Lemma transcription_updates_keep_mood (s : App) f :
  (update_transcriptions s f).(dogState) = s.(dogState) /\
  (update_transcriptions s f).(hasOutputCtx) = s.(hasOutputCtx).
Proof. split; reflexivity. Qed.

Lemma onToolCall_keeps_mood tc (s : App) :
  (onToolCall tc s).(dogState) = s.(dogState) /\
  (onToolCall tc s).(hasOutputCtx) = s.(hasOutputCtx).
Proof.
  unfold onToolCall; destruct tc as [[|c cs]|]; try (split; reflexivity).
  destruct (jsstring_eqb _ _); split; reflexivity.
Qed.

(** C3: on a message carrying an audio chunk (with the output audio context
    open) the mood becomes SPEAKING unless it is ANGRY, which stays ANGRY;
    when a chunk ends and no chunk remains active the mood becomes LISTENING,
    from ANGRY as from any other mood. *)
Theorem mood_on_chunk_and_drain :
  (forall source_stop s m now sc frames,
      m.(serverContent) = Some sc -> sc.(audioData) = Some frames ->
      s.(hasOutputCtx) = true ->
      exists s', handleSessionMessage source_stop s m now = Suspended s' /\
                 s'.(dogState) = if dogval_eqb s.(dogState) (Some ANGRY)
                                 then Some ANGRY else Some SPEAKING) /\
  (forall s id,
      remove Nat.eq_dec id s.(playback).(activeSources) = [] ->
      (onEnded s id).(dogState) = Some LISTENING).
Proof.
  split.
  - intros source_stop s m now sc frames Hsc Ha Hctx.
    unfold handleSessionMessage. rewrite Hsc, Ha.
    destruct (onToolCall_keeps_mood (toolCall m) s) as [Hm Hc].
    simpl. rewrite Hc, Hctx.
    eexists; split; [reflexivity|]. simpl. rewrite Hm.
    unfold moodOnChunk; reflexivity.
  - intros s id H. unfold onEnded; simpl. rewrite H. simpl.
    unfold moodOnDrain. destruct (dogval_eqb _ _); reflexivity.
Qed.

(** ** Hiding the board *)

Lemma update_board_hide_frame (s : App) :
  (update_board s hideBoard).(boardContent)
  = {| board_title := s.(boardContent).(board_title);
       visualType := s.(boardContent).(visualType);
       items := s.(boardContent).(items); isVisible := false |}.
Proof. reflexivity. Qed.

(** C10: a scripted action, a typed message and the board's close action
    leave the board's title, visual type and items as they were; at most its
    visibility flag changes. *)
Theorem hide_board_frame :
  (forall s t mood now, exists v,
      (handleAction s t mood now).(boardContent)
      = {| board_title := s.(boardContent).(board_title);
           visualType := s.(boardContent).(visualType);
           items := s.(boardContent).(items); isVisible := v |}) /\
  (forall s now, exists v,
      (handleSendMessage s now).(boardContent)
      = {| board_title := s.(boardContent).(board_title);
           visualType := s.(boardContent).(visualType);
           items := s.(boardContent).(items); isVisible := v |}) /\
  (forall s, exists v,
      (closeBoard s).(boardContent)
      = {| board_title := s.(boardContent).(board_title);
           visualType := s.(boardContent).(visualType);
           items := s.(boardContent).(items); isVisible := v |}).
Proof.
  split; [|split].
  - intros s t mood now. unfold handleAction.
    destruct (_ || _); [exists s.(boardContent).(isVisible); destruct s as [? ? ? []]; reflexivity|].
    destruct (includes t (js "Bark")); [destruct (3 <=? _)|];
      first [exists s.(boardContent).(isVisible); destruct s as [? ? ? []]; reflexivity
            | exists false; reflexivity].
  - intros s now. unfold handleSendMessage.
    destruct (_ || _ || _); [exists s.(boardContent).(isVisible); destruct s as [? ? ? []]; reflexivity|].
    exists false; reflexivity.
  - intros s. exists false. reflexivity.
Qed.

(** ** Board visibility across events *)

Lemma cleanupSession_board source_stop s s' :
  cleanupSession source_stop s = inl s' -> s'.(boardContent) = s.(boardContent).
Proof.
  unfold cleanupSession, bind. destruct (stopAllAudio _ _); simpl; intros H; inversion H; reflexivity.
Qed.

Lemma onTurnMarkers_board source_stop sc s s' :
  onTurnMarkers source_stop sc s = inl s' -> s'.(boardContent) = s.(boardContent).
Proof.
  unfold onTurnMarkers, bind.
  destruct (turnComplete sc), (activeSources (playback s)), (interrupted sc);
    try (destruct (stopAllAudio _ _)); simpl; intros H; inversion H; reflexivity.
Qed.

Lemma startSession_board source_stop k s s' :
  startSession source_stop k s = inl s' -> s'.(boardContent) = s.(boardContent).
Proof.
  unfold startSession, bind. destruct k.
  - destruct (cleanupSession _ _) as [s1|] eqn:E; simpl; intros H; inversion H; subst.
    apply cleanupSession_board in E. exact E.
  - destruct (cleanupSession _ _) as [s1|] eqn:E; simpl; intros H; inversion H; subst.
    apply cleanupSession_board in E. exact E.
Qed.

Lemma handleAction_visible s t mood now :
  (handleAction s t mood now).(sent) <> s.(sent) ->
  includes t (js "Bark") = false ->
  (handleAction s t mood now).(boardContent).(isVisible) = false.
Proof.
  unfold handleAction. intros Hs Hb. rewrite Hb in *.
  destruct (_ || _); [contradiction|reflexivity].
Qed.

Lemma handleAction_visible_or_same s t mood now :
  (handleAction s t mood now).(boardContent).(isVisible) = s.(boardContent).(isVisible) \/
  (handleAction s t mood now).(boardContent).(isVisible) = false.
Proof.
  unfold handleAction. destruct (_ || _); [left; reflexivity|].
  destruct (includes _ _); [destruct (3 <=? _)|]; simpl; auto.
Qed.

Lemma handleSendMessage_visible_or_same s now :
  (handleSendMessage s now).(boardContent).(isVisible) = s.(boardContent).(isVisible) \/
  (handleSendMessage s now).(boardContent).(isVisible) = false.
Proof. unfold handleSendMessage. destruct (_ || _ || _); simpl; auto. Qed.

(** Only a tool call can show the board. *)
Lemma step_keeps_hidden source_stop s e s' :
  is_tool_call e = false -> step source_stop s e = inl s' ->
  s.(boardContent).(isVisible) = false -> s'.(boardContent).(isVisible) = false.
Proof.
  intros Ht Hs Hv. destruct e; simpl in Hs.
  - inversion Hs; subst.
    destruct (handleAction_visible_or_same s (fst (buttonAction b)) (snd (buttonAction b)) now)
      as [H|H]; rewrite H; auto.
  - inversion Hs; subst; exact Hv.
  - inversion Hs; subst. destruct (handleSendMessage_visible_or_same s now) as [H|H];
      rewrite H; auto.
  - inversion Hs; subst; reflexivity.
  - destruct (dogval_eqb _ _).
    + apply startSession_board in Hs. rewrite Hs; exact Hv.
    + inversion Hs; subst; exact Hv.
  - inversion Hs; subst; exact Hv.
  - unfold onClose in Hs. apply cleanupSession_board in Hs. rewrite Hs; exact Hv.
  - simpl in Ht. unfold handleSessionMessage in Hs.
    destruct (toolCall m) eqn:Etc; [discriminate|]. simpl in Hs.
    destruct (serverContent m) as [sc|].
    + destruct (audioData sc).
      * destruct (hasOutputCtx _).
        -- inversion Hs; subst; exact Hv.
        -- apply onTurnMarkers_board in Hs. rewrite Hs; exact Hv.
      * apply onTurnMarkers_board in Hs. rewrite Hs; exact Hv.
    + inversion Hs; subst; exact Hv.
  - unfold resumeAfterDecode in Hs.
    destruct (scheduleSource _ _ _ _) as [p iv].
    apply onTurnMarkers_board in Hs. rewrite Hs; exact Hv.
  - inversion Hs; subst. unfold onEnded.
    destruct (remove _ _ _); exact Hv.
  - destruct (_ && _ && _); inversion Hs; subst; exact Hv.
  - destruct (_ || _); inversion Hs; subst; exact Hv.
Qed.

(** C2: once a scripted action or a typed message has been dispatched to the
    session, the board is hidden, and it stays hidden through every later
    event until a tool call arrives. *)
Theorem board_hidden_until_tool_call :
  forall source_stop s e s1 es sN,
    is_user_input e = true ->
    step source_stop s e = inl s1 ->
    s1.(sent) <> s.(sent) ->
    forallb (fun e => negb (is_tool_call e)) es = true ->
    run source_stop s1 es = inl sN ->
    sN.(boardContent).(isVisible) = false.
Proof.
  intros source_stop s e s1 es sN Hu Hs Hd Hes Hr.
  assert (H1 : s1.(boardContent).(isVisible) = false).
  { destruct e; try discriminate; simpl in Hs; inversion Hs; subst.
    - apply handleAction_visible; [exact Hd|destruct b; reflexivity].
    - revert Hd. unfold handleSendMessage.
      destruct (_ || _ || _); [contradiction|reflexivity]. }
  clear Hs Hd Hu. revert s1 H1 Hr.
  induction es as [|e' es IH]; intros s1 H1 Hr; simpl in Hr.
  - inversion Hr; subst; exact H1.
  - simpl in Hes. apply andb_prop in Hes as [He Hes].
    unfold bind in Hr. destruct (step source_stop s1 e') as [s2|] eqn:E; [|discriminate].
    apply (IH Hes s2); [|exact Hr].
    eapply step_keeps_hidden; [|exact E|exact H1].
    destruct (is_tool_call e'); [discriminate|reflexivity].
Qed.

(** ** Streamed transcription *)

Lemma lastEntry_snoc {A} (l : list A) (x : A) : lastEntry (l ++ [x]) = Some x.
Proof.
  induction l as [|a l IH]; [reflexivity|].
  simpl. destruct (l ++ [x]) eqn:E; [destruct l; discriminate|exact IH].
Qed.

Lemma removelast_snoc {A} (l : list A) (x : A) : removelast (l ++ [x]) = l.
Proof.
  induction l as [|a l IH]; [reflexivity|].
  simpl. destruct (l ++ [x]) eqn:E; [destruct l; discriminate|]. rewrite IH; reflexivity.
Qed.

Lemma with_text_twice e a b : with_text (with_text e a) b = with_text e b.
Proof. reflexivity. Qed.

(** The run of fragments continuing an open agent entry [e]. *)
Lemma output_fragments_extend (fs : list (jsstring * Z)) :
  forall tr e,
    Forall (fun f => fst f <> []) fs ->
    lastEntry tr = Some e -> e.(sender) = dog ->
    onOutputTranscriptions fs tr = removelast tr ++ [with_text e (e.(text) ++ List.concat (map fst fs))].
Proof.
  induction fs as [|[t now] fs IH]; intros tr e Hne Hl Hd; simpl.
  - rewrite app_nil_r. destruct tr as [|x tr]; [discriminate|].
    clear Hne Hd. revert x e Hl.
    induction tr as [|y tr IHtr]; intros x e Hl; simpl in *.
    + inversion Hl; subst. destruct e; reflexivity.
    + rewrite (IHtr y e Hl). reflexivity.
  - inversion Hne as [|f fs' Ht Hfs]; subst; simpl in Ht.
    destruct t as [|c t']; [contradiction|].
    unfold onOutputTranscription, appendFragment. rewrite Hl, Hd. cbn [Sender_eqb].
    rewrite (IH _ (with_text e (text e ++ c :: t')) Hfs (lastEntry_snoc _ _) Hd).
    rewrite removelast_snoc, with_text_twice. simpl. rewrite <- app_assoc. reflexivity.
Qed.

(** C4: a run of non-empty output-transcription fragments with no other
    sender in between extends the agent's open entry with the fragments'
    concatenation, or, when the last entry is not the agent's, starts one
    new agent entry whose text is exactly that concatenation; every earlier
    entry is kept in place. *)
Theorem output_fragments_concat :
  (forall fs tr e,
      Forall (fun f => fst f <> []) fs ->
      lastEntry tr = Some e -> e.(sender) = dog ->
      onOutputTranscriptions fs tr
      = removelast tr ++ [with_text e (e.(text) ++ List.concat (map fst fs))]) /\
  (forall t0 now0 rest tr,
      Forall (fun f => fst f <> []) ((t0, now0) :: rest) ->
      (forall e, lastEntry tr = Some e -> e.(sender) <> dog) ->
      onOutputTranscriptions ((t0, now0) :: rest) tr
      = tr ++ [{| text := List.concat (map fst ((t0, now0) :: rest)); sender := dog;
                  timestamp := now0; webSources := None |}]).
Proof.
  split; [exact output_fragments_extend|].
  intros t0 now0 rest tr Hne Hl.
  inversion Hne as [|f fs' Ht Hfs]; subst; simpl in Ht.
  destruct t0 as [|c t']; [contradiction|]. cbn [onOutputTranscriptions map fst List.concat].
  assert (Hstep : onOutputTranscription (@Some jsstring (c :: t')) now0 tr
                  = tr ++ [{| text := c :: t'; sender := dog; timestamp := now0;
                              webSources := None |}]).
  { unfold onOutputTranscription, appendFragment.
    destruct (lastEntry tr) as [e|] eqn:E; [|reflexivity].
    specialize (Hl e eq_refl). destruct (sender e); [reflexivity|congruence]. }
  rewrite Hstep.
  rewrite (output_fragments_extend rest _ {| text := c :: t'; sender := dog; timestamp := now0; webSources := None |} Hfs (lastEntry_snoc _ _) eq_refl).
  rewrite removelast_snoc. reflexivity.
Qed.

(** ** Citation sources *)

Definition sourceA : WebSource :=
  {| uri := js "https://example.com/a"; title := js "A" |}.

Definition entryHi : TranscriptionEntry :=
  {| text := js "Hi"; sender := dog; timestamp := 0; webSources := None |}.

(** C5: one grounding event carrying the same source twice (two grounding
    chunks with the same uri) leaves two copies of it on the agent's entry:
    [newSources] is filtered against the entry's [existing] sources only,
    not against the other sources of the same event. *)
Theorem grounding_same_source_twice_kept_twice :
  onGroundingMetadata (Some [Some sourceA; Some sourceA]) [entryHi]
  = [with_sources entryHi [sourceA; sourceA]].
Proof. reflexivity. Qed.

(** ** Input transcription filter *)

(** C6 (counterexample): a fragment in Chinese script ("ni hao", U+4F60 U+597D)
    is not dropped: it starts a new user entry. *)
Lemma input_filter_keeps_cjk :
  onInputTranscription (Some [20320; 22909]) 7 []
  = [{| text := [20320; 22909]; sender := user; timestamp := 7; webSources := None |}].
Proof. reflexivity. Qed.

(** C6 (amended): a non-empty input-transcription fragment is dropped exactly
    when it contains a UTF-16 code unit of the Devanagari block
    U+0900..U+097F; any other fragment is handled as an ordinary user
    fragment. *)
Theorem input_filter_devanagari_only :
  forall t now prev, t <> [] ->
    ((exists c, In c t /\ 2304 <= c <= 2431) ->
       onInputTranscription (Some t) now prev = prev) /\
    ((forall c, In c t -> ~ (2304 <= c <= 2431)) ->
       onInputTranscription (Some t) now prev = appendFragment user t now prev).
Proof.
  intros t now prev Hne. destruct t as [|c0 t']; [contradiction|].
  unfold onInputTranscription. split.
  - intros [c [Hin Hc]].
    assert (Hd : hasDevanagari (c0 :: t') = true).
    { apply existsb_exists. exists c. split; [exact Hin|].
      apply andb_true_intro; split; apply Z.leb_le; lia. }
    rewrite Hd. reflexivity.
  - intros Hno.
    assert (Hd : hasDevanagari (c0 :: t') = false).
    { destruct (hasDevanagari _) eqn:E; [|reflexivity].
      apply existsb_exists in E as [c [Hin Hc]].
      apply andb_prop in Hc as [H1 H2]. apply Z.leb_le in H1, H2.
      exfalso. apply (Hno c Hin). lia. }
    rewrite Hd. reflexivity.
Qed.

(** ** Avatar mood enumeration *)

(** C7: [types.ts] declares IDLE, LISTENING, THINKING, SPEAKING, HAPPY and
    ANGRY, with no CONNECTING member, so [DogState.CONNECTING] is [undefined];
    starting a session with a key from the initial state leaves the mood
    [undefined] instead of a Connecting value, and [onopen] then sets
    LISTENING. *)
Theorem connecting_not_a_member :
  map fst DogState_members
    = ["IDLE"; "LISTENING"; "THINKING"; "SPEAKING"; "HAPPY"; "ANGRY"]%string /\
  DS_CONNECTING = None /\
  match startSession (fun _ => ret tt) true initialApp with
  | inl s => s.(dogState) = None /\ (onOpen s).(dogState) = Some LISTENING
  | inr _ => False
  end.
Proof. split; [reflexivity|split; [reflexivity|split; reflexivity]]. Qed.

(** ** Sanitizer *)

Definition lower_word (l : jsstring) : bool :=
  forallb (fun c => (97 <=? c) && (c <=? 122)) l.

(** [pre] spells [l] case-insensitively. *)
Definition spells (l pre : jsstring) : Prop := Forall2 (fun p c => ci_eq p c = true) l pre.

Lemma ci_eq_inj p q c :
  97 <= p <= 122 -> 97 <= q <= 122 -> ci_eq p c = true -> ci_eq q c = true -> p = q.
Proof.
  unfold ci_eq. intros Hp Hq H1 H2.
  rewrite orb_true_iff, !Z.eqb_eq in H1, H2. lia.
Qed.

Lemma match_ci_spells l pre rest : spells l pre -> match_ci l (pre ++ rest) = Some rest.
Proof. induction 1 as [|p c l pre Hpc _ IH]; simpl; [reflexivity|]. rewrite Hpc; exact IH. Qed.

(** Two lower-case words that both match at the start of a string are
    prefix-related. *)
Lemma match_ci_prefix l pre rest :
  spells l pre -> lower_word l = true ->
  forall l' r, lower_word l' = true -> match_ci l' (pre ++ rest) = Some r ->
  prefixb l' l = true \/ prefixb l l' = true.
Proof.
  induction 1 as [|p c l pre Hpc _ IH]; intros Hl l' r Hl' Hm; [right; reflexivity|].
  destruct l' as [|q l'']; [left; reflexivity|].
  simpl in Hm, Hl, Hl'. apply andb_prop in Hl as [Hp Hl]. apply andb_prop in Hl' as [Hq Hl'].
  apply andb_prop in Hp as [Hp1 Hp2]. apply andb_prop in Hq as [Hq1 Hq2].
  apply Z.leb_le in Hp1, Hp2, Hq1, Hq2.
  destruct (ci_eq q c) eqn:Eq; [|discriminate].
  assert (q = p) by (apply (ci_eq_inj q p c); lia || assumption).
  subst q. simpl. rewrite Z.eqb_refl. simpl.
  exact (IH Hl l'' r Hl' Hm).
Qed.

Lemma match_alt_none alts s :
  (forall l, In l alts -> match_ci l s = None) -> match_alt alts s = None.
Proof.
  induction alts as [|a alts IH]; intros H; simpl; [reflexivity|].
  rewrite (H a (or_introl eq_refl)). apply IH. intros l Hl; apply H; right; exact Hl.
Qed.

Lemma match_alt_unique alts l pre rest :
  In l alts -> spells l pre -> lower_word l = true ->
  Forall (fun a => lower_word a = true) alts ->
  (forall a, In a alts -> a <> l -> prefixb a l = false /\ prefixb l a = false) ->
  match_alt alts (pre ++ rest) = Some rest.
Proof.
  induction alts as [|a alts IH]; intros Hin Hsp Hl Hlow Hpf; [destruct Hin|].
  inversion Hlow as [|a' alts' Ha Hlow']; subst. simpl.
  destruct (list_eq_dec Z.eq_dec a l) as [->|Hne].
  - rewrite (match_ci_spells l pre rest Hsp). reflexivity.
  - destruct (match_ci a (pre ++ rest)) as [r|] eqn:Em.
    + destruct (match_ci_prefix l pre rest Hsp Hl a r Ha Em) as [H|H];
        destruct (Hpf a (or_introl eq_refl) Hne); congruence.
    + destruct Hin as [Hin|Hin]; [congruence|].
      apply IH; auto. intros b Hb; apply Hpf; right; exact Hb.
Qed.

(** C8: [cleanContent] strips a leading label among detail, content, value,
    description and step, matched case-insensitively, with an optional
    colon (after optional spaces) and the spaces that follow; text that does
    not start with such a label is returned unchanged. *)
Theorem cleanContent_strips_labels :
  cleanContent (js "Detail: 42") = js "42" /\
  cleanContent (js "content:x") = js "x" /\
  cleanContent (js "no-prefix") = js "no-prefix" /\
  (forall t, (forall l, In l labels -> match_ci l t = None) -> cleanContent t = t) /\
  (forall l pre rest, In l labels -> spells l pre ->
     cleanContent (pre ++ rest) = skip_ws (opt_colon rest)).
Proof.
  split; [reflexivity|]. split; [reflexivity|]. split; [reflexivity|]. split.
  - intros t H. destruct t as [|c t']; [reflexivity|].
    unfold cleanContent. rewrite (match_alt_none labels (c :: t') H). reflexivity.
  - intros l pre rest Hin Hsp.
    assert (Hlow : Forall (fun a => lower_word a = true) labels) by repeat constructor.
    assert (Hl : lower_word l = true) by (rewrite Forall_forall in Hlow; exact (Hlow l Hin)).
    assert (Hpre : pre <> []).
    { intros ->. inversion Hsp; subst.
      simpl in Hin; repeat destruct Hin as [Hin|Hin]; try discriminate; destruct Hin. }
    assert (Hm : match_alt labels (pre ++ rest) = Some rest).
    { apply (match_alt_unique labels l pre rest Hin Hsp Hl Hlow).
      intros a Ha Hne. simpl in Hin, Ha.
      repeat destruct Hin as [Hin|Hin]; subst; try destruct Hin;
        repeat destruct Ha as [Ha|Ha]; subst; try destruct Ha;
        first [congruence | split; reflexivity]. }
    unfold cleanContent. destruct pre as [|c pre']; [contradiction|].
    simpl app. simpl app in Hm. rewrite Hm. reflexivity.
Qed.

(** ** Stopping all playback *)

Definition stop_ok (source_stop : nat -> Exc unit) (id : nat) : bool :=
  match source_stop id with inl _ => true | inr _ => false end.

Lemma forEach_stopSource source_stop l :
  forall p, forEach (stopSource source_stop) l p
    = inl {| nextStartTime := p.(nextStartTime); activeSources := p.(activeSources);
             halted := p.(halted) ++ filter (stop_ok source_stop) l |}.
Proof.
  induction l as [|x l IH]; intros p; simpl.
  - rewrite app_nil_r. destruct p; reflexivity.
  - unfold stopSource, stop_ok, bind, try_catch, ret.
    destruct (source_stop x); simpl; rewrite IH; simpl.
    + rewrite <- app_assoc. reflexivity.
    + reflexivity.
Qed.

Definition playing : Playback := {| nextStartTime := 480; activeSources := []; halted := [] |}.

(** C9 (counterexample): with no chunk active but a watermark of 480 frames,
    stop-all is not a no-op: it resets the watermark to zero. *)
Lemma stopAll_idle_resets_watermark :
  stopAllAudio (fun _ => ret tt) playing <> inl playing.
Proof. discriminate. Qed.

(** C9 (amended): whatever [stop()] does on each node, including throwing,
    stop-all raises nothing, calls [stop()] on every active node, clears the
    active set and resets the watermark to zero; with no active node it halts
    nothing and only resets the watermark, which leaves the start of the next
    chunk unchanged once the clock has reached the old watermark. *)
Theorem stopAll_never_throws :
  (forall source_stop p,
      stopAllAudio source_stop p
      = inl {| nextStartTime := 0; activeSources := [];
               halted := p.(halted) ++ filter (stop_ok source_stop) p.(activeSources) |}) /\
  (forall source_stop p, p.(activeSources) = [] ->
      stopAllAudio source_stop p
      = inl {| nextStartTime := 0; activeSources := []; halted := p.(halted) |}) /\
  (forall p id now frames, 0 <= now -> p.(nextStartTime) <= now ->
      snd (scheduleSource {| nextStartTime := 0; activeSources := []; halted := p.(halted) |}
             id now frames)
      = snd (scheduleSource p id now frames)).
Proof.
  assert (H1 : forall source_stop p,
      stopAllAudio source_stop p
      = inl {| nextStartTime := 0; activeSources := [];
               halted := p.(halted) ++ filter (stop_ok source_stop) p.(activeSources) |}).
  { intros source_stop p. unfold stopAllAudio, bind. rewrite forEach_stopSource. reflexivity. }
  split; [exact H1|split].
  - intros source_stop p Ha. rewrite H1, Ha. simpl. rewrite app_nil_r. reflexivity.
  - intros p id now frames H0 Hw. simpl.
    rewrite (Z.max_r 0 now H0), (Z.max_r _ now Hw). reflexivity.
Qed.

(** * Concrete instances *)

(** A browser whose [stop()] never throws. *)
Definition browser_stop : nat -> Exc unit := fun _ => ret tt.

(** A live session with a visible board. *)
Definition liveApp : App :=
  {| dogState := DS_LISTENING; barkCount := 0; inputText := [];
     boardContent := {| board_title := js "Fastest animals"; visualType := bar_chart;
                        items := [{| heading := Some (js "Cheetah"); content := js "120" |}];
                        isVisible := true |};
     transcriptions := [entryHi];
     playback := {| nextStartTime := 0; activeSources := []; halted := [] |};
     hasOutputCtx := true; hasSession := true; sent := [] |}.

Definition agentSpeech : ServerContent :=
  {| outputTranscription := Some (js "Good"); groundingChunks := None;
     inputTranscription := None; audioData := Some 2400%nat;
     turnComplete := false; interrupted := false |}.

Definition agentMessage : Message := {| toolCall := None; serverContent := Some agentSpeech |}.

Definition clickedApp : App :=
  Eval vm_compute in
  match step browser_stop liveApp (EvClick Treat 5) with inl s => s | inr _ => liveApp end.

Definition laterEvents : list Event :=
  [EvMessage agentMessage 6; EvDecoded agentSpeech 0%nat 100 2400%nat; EvEnded 0%nat].

Definition laterApp : App :=
  Eval vm_compute in
  match run browser_stop clickedApp laterEvents with inl s => s | inr _ => clickedApp end.

Lemma board_hidden_until_tool_call_witness :
  step browser_stop liveApp (EvClick Treat 5) = inl clickedApp /\
  run browser_stop clickedApp laterEvents = inl laterApp /\
  laterApp.(boardContent).(isVisible) = false.
Proof.
  split; [vm_compute; reflexivity|]. split; [vm_compute; reflexivity|].
  apply (board_hidden_until_tool_call browser_stop liveApp (EvClick Treat 5) clickedApp
           laterEvents laterApp).
  - reflexivity.
  - vm_compute; reflexivity.
  - vm_compute. intros H; discriminate H.
  - reflexivity.
  - vm_compute; reflexivity.
Defined.

Definition speakingApp : App := set_playback liveApp
  {| nextStartTime := 2500; activeSources := [0%nat]; halted := [] |}.

Lemma mood_on_chunk_and_drain_witness :
  (exists s', handleSessionMessage browser_stop liveApp agentMessage 6 = Suspended s' /\
              s'.(dogState) = if dogval_eqb liveApp.(dogState) (Some ANGRY)
                              then Some ANGRY else Some SPEAKING) /\
  (onEnded speakingApp 0%nat).(dogState) = Some LISTENING.
Proof.
  split.
  - apply (proj1 mood_on_chunk_and_drain browser_stop liveApp agentMessage 6 agentSpeech 2400%nat);
      reflexivity.
  - apply (proj2 mood_on_chunk_and_drain); reflexivity.
Defined.

Definition agentHel : TranscriptionEntry :=
  {| text := js "Hel"; sender := dog; timestamp := 1; webSources := None |}.

Definition userHi : TranscriptionEntry :=
  {| text := js "hi"; sender := user; timestamp := 1; webSources := None |}.

Lemma output_fragments_concat_witness :
  onOutputTranscriptions [(js "lo", 2); (js " there", 3)] [userHi; agentHel]
    = [userHi; with_text agentHel (js "Hel" ++ js "lo" ++ js " there")] /\
  onOutputTranscriptions [(js "Hel", 2); (js "lo", 3)] [userHi]
    = [userHi; {| text := js "Hel" ++ js "lo"; sender := dog; timestamp := 2;
                  webSources := None |}].
Proof.
  split.
  - apply (proj1 output_fragments_concat [(js "lo", 2); (js " there", 3)]
             [userHi; agentHel] agentHel).
    + repeat constructor; simpl; discriminate.
    + reflexivity.
    + reflexivity.
  - apply (proj2 output_fragments_concat (js "Hel") 2 [(js "lo", 3)] [userHi]).
    + repeat constructor; simpl; discriminate.
    + intros e He. simpl in He. inversion He; subst. simpl. discriminate.
Defined.

Lemma input_filter_devanagari_only_witness :
  onInputTranscription (Some [2344; 2350]) 0 [userHi] = [userHi] /\
  onInputTranscription (Some (js "hello")) 0 [userHi]
    = appendFragment user (js "hello") 0 [userHi].
Proof.
  split.
  - apply (proj1 (input_filter_devanagari_only [2344; 2350] 0 [userHi] ltac:(discriminate))).
    exists 2344. split; [left; reflexivity|lia].
  - apply (proj2 (input_filter_devanagari_only (js "hello") 0 [userHi] ltac:(discriminate))).
    intros c Hc. simpl in Hc. repeat destruct Hc as [<-|Hc]; try lia; try destruct Hc.
Defined.

Lemma cleanContent_strips_labels_witness :
  cleanContent (js "no-prefix") = js "no-prefix" /\
  cleanContent (js "STEP" ++ js " : go") = skip_ws (opt_colon (js " : go")).
Proof.
  split.
  - apply (proj1 (proj2 (proj2 (proj2 cleanContent_strips_labels)))).
    intros l Hl. simpl in Hl. repeat destruct Hl as [<-|Hl]; try reflexivity. destruct Hl.
  - apply (proj2 (proj2 (proj2 (proj2 cleanContent_strips_labels))) (js "step")).
    + simpl; auto 6.
    + unfold spells; simpl; repeat constructor.
Defined.

Lemma stopAll_never_throws_witness :
  stopAllAudio browser_stop playing
    = inl {| nextStartTime := 0; activeSources := []; halted := [] |} /\
  snd (scheduleSource {| nextStartTime := 0; activeSources := []; halted := [] |} 1%nat 500 2400%nat)
    = snd (scheduleSource playing 1%nat 500 2400%nat).
Proof.
  split.
  - apply (proj1 (proj2 stopAll_never_throws) browser_stop playing). reflexivity.
  - apply (proj2 (proj2 stopAll_never_throws) playing 1%nat 500 2400%nat); simpl; lia.
Defined.

(** * Further properties of the session core *)

Lemma stopAllAudio_result source_stop p :
  stopAllAudio source_stop p
  = inl {| nextStartTime := 0; activeSources := [];
           halted := p.(halted) ++ filter (stop_ok source_stop) p.(activeSources) |}.
Proof. unfold stopAllAudio, bind. rewrite forEach_stopSource. reflexivity. Qed.

Lemma cleanupSession_result source_stop s :
  cleanupSession source_stop s
  = inl (set_connection
           (set_playback s {| nextStartTime := 0; activeSources := [];
                              halted := s.(playback).(halted)
                                        ++ filter (stop_ok source_stop) s.(playback).(activeSources) |})
           false false).
Proof. unfold cleanupSession. rewrite stopAllAudio_result. reflexivity. Qed.

(** [cleanupSession] is idempotent: tearing down an already torn-down
    session changes nothing, whatever [stop()] does. *)
Theorem cleanupSession_idempotent :
  forall source_stop s,
    bind (cleanupSession source_stop s) (cleanupSession source_stop)
    = cleanupSession source_stop s.
Proof.
  intros source_stop s. rewrite cleanupSession_result. simpl.
  rewrite cleanupSession_result. simpl. rewrite app_nil_r. reflexivity.
Qed.

(** [onerror] and [onclose] return to IDLE with no session, no output
    context, no active source and a zero watermark; they never throw. *)
Theorem session_end_tears_down :
  forall source_stop s, exists s',
    onClose source_stop s = inl s' /\
    s'.(dogState) = Some IDLE /\ s'.(hasSession) = false /\ s'.(hasOutputCtx) = false /\
    s'.(playback).(activeSources) = [] /\ s'.(playback).(nextStartTime) = 0.
Proof.
  intros source_stop s. unfold onClose. rewrite cleanupSession_result.
  eexists; split; [reflexivity|]. repeat split.
Qed.





(** Whether the component accepts user input: not IDLE and not connecting
    (where [dogState] holds [DogState.CONNECTING], i.e. [undefined]). *)
Definition accepts_input (d : dogval) : bool :=
  negb (dogval_eqb d DS_IDLE || dogval_eqb d DS_CONNECTING).

Lemma onToolCall_keeps_playback tc s :
  (onToolCall tc s).(playback) = s.(playback) /\
  (onToolCall tc s).(transcriptions) = s.(transcriptions).
Proof.
  unfold onToolCall; destruct tc as [[|c cs]|]; try (split; reflexivity).
  destruct (jsstring_eqb _ _); split; reflexivity.
Qed.







(** Three consecutive "Bark" actions from a fresh counter make the dog ANGRY,
    provided the requested mood keeps the component accepting input. *)
Theorem three_barks_make_angry :
  forall s t mood,
    accepts_input s.(dogState) = true -> accepts_input mood = true ->
    includes t (js "Bark") = true -> s.(barkCount) = 0 ->
    (handleAction (handleAction (handleAction s t mood 1) t mood 2) t mood 3).(dogState)
      = Some ANGRY.
Proof.
  intros s t mood Hs Hm Hb Hc.
  unfold accepts_input in Hs, Hm. apply negb_true_iff in Hs, Hm.
  remember (handleAction s t mood 1) as s1 eqn:E1.
  assert (H1 : s1.(dogState) = mood /\ s1.(barkCount) = 1).
  { subst s1. unfold handleAction. rewrite Hs, Hb, Hc. split; reflexivity. }
  remember (handleAction s1 t mood 2) as s2 eqn:E2.
  assert (H2 : s2.(dogState) = mood /\ s2.(barkCount) = 2).
  { subst s2. destruct H1 as [Hd Hk]. unfold handleAction. rewrite Hd, Hm, Hb, Hk.
    split; reflexivity. }
  destruct H2 as [Hd Hk]. unfold handleAction. rewrite Hd, Hm, Hb, Hk. reflexivity.
Qed.

(** ** Grounding never rewrites a transcript *)

Lemma jsstring_eqb_refl a : jsstring_eqb a a = true.
Proof. unfold jsstring_eqb. destruct (list_eq_dec Z.eq_dec a a); congruence. Qed.

Lemma lastEntry_spec {A} (l : list A) (x : A) : lastEntry l = Some x -> l = removelast l ++ [x].
Proof.
  induction l as [|a r IH]; [discriminate|].
  destruct r as [|b r'].
  - simpl. intros H; injection H as <-. reflexivity.
  - intros H. change (lastEntry (b :: r') = Some x) in H.
    change (removelast (a :: b :: r')) with (a :: removelast (b :: r')).
    rewrite (IH H) at 1. reflexivity.
Qed.

Lemma known_sources_filtered (srcs existing : list WebSource) :
  let known e := negb (existsb (fun w => jsstring_eqb w.(uri) e.(uri)) existing) in
  forall l, (forall x, In x l -> In x srcs) ->
  filter (fun e => negb (existsb (fun w => jsstring_eqb w.(uri) e.(uri))
                                 (existing ++ filter known srcs))) l = [].
Proof.
  intros known l. induction l as [|x l IH]; intros Hin; [reflexivity|].
  simpl. rewrite existsb_app.
  destruct (existsb (fun w => jsstring_eqb (uri w) (uri x)) existing) eqn:Ee.
  - simpl. apply IH. intros y Hy. apply Hin. right. exact Hy.
  - replace (existsb (fun w => jsstring_eqb (uri w) (uri x)) (filter known srcs)) with true.
    + simpl. apply IH. intros y Hy. apply Hin. right. exact Hy.
    + symmetry. apply existsb_exists. exists x. split.
      * apply filter_In. split; [apply Hin; left; reflexivity|]. unfold known. rewrite Ee. reflexivity.
      * apply jsstring_eqb_refl.
Qed.

(** Merging a batch of grounding sources is idempotent: delivering the same
    batch again changes nothing, even when the batch repeats a URI. *)
Theorem grounding_merge_idempotent :
  forall srcs tr, mergeSources srcs (mergeSources srcs tr) = mergeSources srcs tr.
Proof.
  intros srcs tr. unfold mergeSources at 2 3.
  destruct (lastEntry tr) as [last|] eqn:El; [|fold (mergeSources srcs tr); unfold mergeSources; rewrite El; reflexivity].
  destruct (Sender_eqb (sender last) dog) eqn:Es;
    [|unfold mergeSources; rewrite El, Es; reflexivity].
  cbv zeta.
  set (existing := match webSources last with Some ws => ws | None => [] end).
  set (known := fun e : WebSource =>
                  negb (existsb (fun w => jsstring_eqb (uri w) (uri e)) existing)).
  destruct (filter known srcs) as [|n ns] eqn:Ef.
  - unfold mergeSources. rewrite El, Es. cbv zeta. fold existing. fold known. rewrite Ef. reflexivity.
  - unfold mergeSources at 1. rewrite lastEntry_snoc. simpl. rewrite Es.
    rewrite <- Ef. unfold known, existing. rewrite known_sources_filtered; [reflexivity|].
    intros x Hx; exact Hx.
Qed.

Lemma mergeSources_keys srcs tr :
  map (fun e => (e.(text), e.(sender), e.(timestamp))) (mergeSources srcs tr)
  = map (fun e => (e.(text), e.(sender), e.(timestamp))) tr.
Proof.
  unfold mergeSources. destruct (lastEntry tr) as [last|] eqn:El; [|reflexivity].
  destruct (Sender_eqb _ _); [|reflexivity]. cbv zeta.
  destruct (filter _ srcs); [reflexivity|].
  transitivity (map (fun e => (e.(text), e.(sender), e.(timestamp))) (removelast tr ++ [last])).
  - rewrite !map_app. reflexivity.
  - rewrite <- (lastEntry_spec tr last El). reflexivity.
Qed.

(** Grounding metadata only attaches sources: it never changes the number of
    entries, nor any entry's text, sender or timestamp. *)
Theorem grounding_keeps_texts :
  forall chunks tr,
    List.length (onGroundingMetadata chunks tr) = List.length tr /\
    map (fun e => (e.(text), e.(sender), e.(timestamp))) (onGroundingMetadata chunks tr)
    = map (fun e => (e.(text), e.(sender), e.(timestamp))) tr.
Proof.
  intros chunks tr.
  assert (K : map (fun e => (e.(text), e.(sender), e.(timestamp))) (onGroundingMetadata chunks tr)
              = map (fun e => (e.(text), e.(sender), e.(timestamp))) tr).
  { unfold onGroundingMetadata. destruct chunks as [cs|]; [|reflexivity].
    cbv zeta. match goal with |- context [match ?x with [] => _ | _ :: _ => _ end] => destruct x end;
      [reflexivity|]. apply mergeSources_keys. }
  split; [|exact K].
  rewrite <- (length_map (fun e => (e.(text), e.(sender), e.(timestamp))) (onGroundingMetadata chunks tr)).
  rewrite K. apply length_map.
Qed.

(** ** Tool calls *)


(** ** Teardown and late [onended] events *)

(** [onended] does not look at the session: when the ended event of a
    source stopped by [onerror]/[onclose] arrives after the teardown, the dog
    leaves IDLE for LISTENING although there is no session any more. *)
Theorem ended_after_teardown_wakes_dog :
  forall source_stop s s' id,
    onClose source_stop s = inl s' ->
    (onEnded s' id).(dogState) = Some LISTENING /\
    (onEnded s' id).(hasSession) = false /\ (onEnded s' id).(hasOutputCtx) = false.
Proof.
  intros source_stop s s' id H. unfold onClose in H. rewrite cleanupSession_result in H.
  injection H as <-. unfold onEnded. simpl.
  unfold moodOnDrain. destruct (dogval_eqb _ _); repeat split.
Qed.


(** ** Connecting *)

(** From IDLE, a click on the dog and the session's [onopen] lead to
    LISTENING with a session and an output context, an empty audio queue and
    the transcript and board kept; a second click while connecting is
    ignored, so it opens no second session. *)
Theorem connect_from_idle :
  forall source_stop s, s.(dogState) = DS_IDLE ->
    exists s', run source_stop s [EvStart true; EvOpen] = inl s' /\
      s'.(dogState) = DS_LISTENING /\ s'.(hasSession) = true /\ s'.(hasOutputCtx) = true /\
      s'.(playback).(activeSources) = [] /\ s'.(playback).(nextStartTime) = 0 /\
      s'.(transcriptions) = s.(transcriptions) /\ s'.(boardContent) = s.(boardContent) /\
      run source_stop s [EvStart true; EvStart true; EvOpen] = inl s'.
Proof.
  intros source_stop s H. simpl. rewrite H.
  change (dogval_eqb DS_IDLE DS_IDLE) with true.
  unfold startSession. rewrite cleanupSession_result. simpl.
  eexists; split; [reflexivity|]. repeat split.
Qed.

(** ** The transcript is append-only *)

(** [new] keeps every entry of [old] but its last one, and is no shorter. *)
Definition keeps_history (old new : list TranscriptionEntry) : Prop :=
  exists suf, new = removelast old ++ suf /\ (List.length old <= List.length new)%nat.

Lemma keeps_refl l : keeps_history l l.
Proof.
  destruct l as [|a r]; [exists []; split; [reflexivity|lia]|].
  exists [last (a :: r) a]. split; [|lia].
  apply app_removelast_last. discriminate.
Qed.

Lemma keeps_app l m : keeps_history l (l ++ m).
Proof.
  destruct (keeps_refl l) as [suf [E _]]. exists (suf ++ m). split.
  - rewrite app_assoc, <- E. reflexivity.
  - rewrite length_app. lia.
Qed.

Lemma keeps_replace_last l y x : lastEntry l = Some y -> keeps_history l (removelast l ++ [x]).
Proof.
  intros H. exists [x]. split; [reflexivity|].
  rewrite (lastEntry_spec l y H) at 1. rewrite !length_app. simpl. lia.
Qed.

Lemma keeps_trans a b c : keeps_history a b -> keeps_history b c -> keeps_history a c.
Proof.
  intros [s1 [E1 L1]] [s2 [E2 L2]].
  destruct s1 as [|x s1'].
  - rewrite app_nil_r in E1. subst b.
    destruct a as [|y a'].
    + exists s2. split; [exact E2|lia].
    + exfalso. assert (Hl : List.length (y :: a') = S (List.length (removelast (y :: a')))).
      { rewrite (@app_removelast_last _ (y :: a') y) at 1 by discriminate.
        rewrite length_app. simpl. lia. }
      lia.
  - exists (removelast (x :: s1') ++ s2). split; [|lia].
    rewrite E2, E1, removelast_app by discriminate. rewrite app_assoc. reflexivity.
Qed.

Lemma appendFragment_keeps who t now prev : keeps_history prev (appendFragment who t now prev).
Proof.
  unfold appendFragment. destruct (lastEntry prev) as [last|] eqn:El; [|apply keeps_app].
  destruct (Sender_eqb _ _); [eapply keeps_replace_last; exact El|apply keeps_app].
Qed.

Lemma mergeSources_keeps srcs prev : keeps_history prev (mergeSources srcs prev).
Proof.
  unfold mergeSources. destruct (lastEntry prev) as [last|] eqn:El; [|apply keeps_refl].
  destruct (Sender_eqb _ _); [|apply keeps_refl]. cbv zeta.
  destruct (filter _ srcs); [apply keeps_refl|]. eapply keeps_replace_last; exact El.
Qed.

Lemma transcript_updaters_keep sc now prev :
  keeps_history prev
    (onInputTranscription sc.(inputTranscription) now
       (onGroundingMetadata sc.(groundingChunks)
          (onOutputTranscription sc.(outputTranscription) now prev))).
Proof.
  set (t1 := onOutputTranscription sc.(outputTranscription) now prev).
  set (t2 := onGroundingMetadata sc.(groundingChunks) t1).
  apply (keeps_trans prev t1); [|apply (keeps_trans t1 t2)].
  - unfold t1, onOutputTranscription. destruct (outputTranscription sc) as [[|c t]|];
      first [apply keeps_refl | apply appendFragment_keeps].
  - unfold t2, onGroundingMetadata. destruct (groundingChunks sc) as [cs|]; [|apply keeps_refl].
    cbv zeta. match goal with |- context [match ?x with [] => _ | _ :: _ => _ end] => destruct x end;
      [apply keeps_refl|apply mergeSources_keeps].
  - unfold onInputTranscription. destruct (inputTranscription sc) as [[|c t]|]; try apply keeps_refl.
    destruct (negb _); [apply appendFragment_keeps|apply keeps_refl].
Qed.

Lemma onTurnMarkers_transcriptions source_stop sc s s' :
  onTurnMarkers source_stop sc s = inl s' -> s'.(transcriptions) = s.(transcriptions).
Proof.
  unfold onTurnMarkers. destruct (interrupted sc).
  - rewrite stopAllAudio_result. simpl. intros H; injection H as <-.
    destruct (turnComplete sc); [destruct (activeSources _)|]; reflexivity.
  - intros H; injection H as <-.
    destruct (turnComplete sc); [destruct (activeSources _)|]; reflexivity.
Qed.

Lemma step_keeps_history source_stop s e s' :
  step source_stop s e = inl s' -> keeps_history s.(transcriptions) s'.(transcriptions).
Proof.
  destruct e; simpl; intros H.
  - injection H as <-. unfold handleAction.
    destruct (_ || _); [apply keeps_refl|].
    destruct (includes _ _); [destruct (3 <=? _)|]; simpl; first [apply keeps_refl | apply keeps_app].
  - injection H as <-. apply keeps_refl.
  - injection H as <-. unfold handleSendMessage.
    destruct (_ || _); [apply keeps_refl|]. simpl. apply keeps_app.
  - injection H as <-. apply keeps_refl.
  - destruct (dogval_eqb _ _); [|injection H as <-; apply keeps_refl].
    unfold startSession in H. destruct apiKey; rewrite cleanupSession_result in H;
      simpl in H; injection H as <-; apply keeps_refl.
  - injection H as <-. apply keeps_refl.
  - unfold onClose in H. rewrite cleanupSession_result in H. injection H as <-. apply keeps_refl.
  - unfold handleSessionMessage in H.
    destruct (onToolCall_keeps_playback (toolCall m) s) as [_ Ht].
    destruct (serverContent m) as [sc|]; [|injection H as <-; rewrite Ht; apply keeps_refl].
    assert (K := transcript_updaters_keep sc now (transcriptions (onToolCall (toolCall m) s))).
    rewrite <- Ht.
    destruct (audioData sc); [destruct (hasOutputCtx _)|].
    + injection H as <-. exact K.
    + apply onTurnMarkers_transcriptions in H. rewrite H. exact K.
    + apply onTurnMarkers_transcriptions in H. rewrite H. exact K.
  - unfold resumeAfterDecode in H. destruct (scheduleSource _ _ _ _) as [p iv].
    apply onTurnMarkers_transcriptions in H. rewrite H. apply keeps_refl.
  - injection H as <-. unfold onEnded. destruct (remove _ _ _); apply keeps_refl.
  - destruct (_ && _ && _); injection H as <-; apply keeps_refl.
  - destruct (_ || _); injection H as <-; apply keeps_refl.
Qed.

Lemma run_keeps_history source_stop es :
  forall s s', run source_stop s es = inl s' -> keeps_history s.(transcriptions) s'.(transcriptions).
Proof.
  induction es as [|e es IH]; intros s s' H.
  - injection H as <-. apply keeps_refl.
  - simpl in H. destruct (step source_stop s e) as [s1|] eqn:E; [|discriminate].
    simpl in H. eapply keeps_trans; [eapply step_keeps_history; exact E|]. exact (IH _ _ H).
Qed.

(** No sequence of events ever rewrites or deletes a transcript entry other
    than the last one (which streaming may extend or annotate), and the
    transcript never gets shorter. *)
Theorem transcript_append_only :
  forall source_stop s es s',
    run source_stop s es = inl s' ->
    exists suf, s'.(transcriptions) = removelast s.(transcriptions) ++ suf /\
                (List.length s.(transcriptions) <= List.length s'.(transcriptions))%nat.
Proof. intros source_stop s es s' H. exact (run_keeps_history source_stop es s s' H). Qed.

(** ** Instances of the session-core properties *)















Lemma three_barks_make_angry_witness :
  (handleAction (handleAction (handleAction liveApp (js "Bark") DS_HAPPY 1)
                  (js "Bark") DS_HAPPY 2) (js "Bark") DS_HAPPY 3).(dogState) = Some ANGRY.
Proof. apply (three_barks_make_angry liveApp (js "Bark") DS_HAPPY); reflexivity. Defined.

Lemma ended_after_teardown_wakes_dog_witness :
  exists s', onClose browser_stop speakingApp = inl s' /\
             (onEnded s' 0%nat).(dogState) = Some LISTENING /\
             (onEnded s' 0%nat).(hasSession) = false.
Proof.
  eexists. split; [reflexivity|].
  destruct (ended_after_teardown_wakes_dog browser_stop speakingApp _ 0%nat ltac:(reflexivity))
    as [H1 [H2 _]].
  split; [exact H1|exact H2].
Defined.

Lemma connect_from_idle_witness :
  exists s', run browser_stop initialApp [EvStart true; EvOpen] = inl s' /\
             s'.(dogState) = DS_LISTENING /\
             run browser_stop initialApp [EvStart true; EvStart true; EvOpen] = inl s'.
Proof.
  destruct (connect_from_idle browser_stop initialApp ltac:(reflexivity))
    as [s' [H1 [H2 [_ [_ [_ [_ [_ [_ H9]]]]]]]]].
  exists s'. split; [exact H1|split; [exact H2|exact H9]].
Defined.

Lemma transcript_append_only_witness :
  exists suf, laterApp.(transcriptions) = removelast clickedApp.(transcriptions) ++ suf /\
              (List.length clickedApp.(transcriptions) <= List.length laterApp.(transcriptions))%nat.
Proof.
  apply (transcript_append_only browser_stop clickedApp laterEvents laterApp).
  vm_compute. reflexivity.
Defined.

(** ** Board item accessors *)

Lemma js_or_truthy a b : truthy a = true -> js_or a b = a.
Proof. unfold js_or. intros H; rewrite H; reflexivity. Qed.

(** Items shaped as the [updateBoard] schema declares them ([content] a
    string, [heading] an optional string) never make the accessors throw:
    they read back the sanitized [content] and [heading], [''] when absent. *)
Theorem board_items_from_schema :
  forall b : BoardItem,
    getItemContent (item_to_jsval b) = inl (cleanContent b.(content)) /\
    getItemHeading (item_to_jsval b)
      = inl (match b.(heading) with Some h => cleanContent h | None => [] end).
Proof. intros [h c]. destruct c, h as [[|]|]; split; reflexivity. Qed.

(** The accessors pass the first truthy field to [cleanContent] whatever its
    type: an object item whose [content] (resp. [heading]) is a truthy
    non-string, e.g. a non-zero number, makes [text.replace] throw a
    TypeError while the board renders. *)
Theorem item_accessors_throw_on_non_string :
  (forall fs v, get (JObj fs) "content" = v -> truthy v = true -> (forall t, v <> JStr t) ->
     getItemContent (JObj fs) = inr NotAFunction) /\
  (forall fs v, get (JObj fs) "heading" = v -> truthy v = true -> (forall t, v <> JStr t) ->
     getItemHeading (JObj fs) = inr NotAFunction).
Proof.
  split; intros fs v Hg Ht Hs.
  - unfold getItemContent. cbv zeta. rewrite Hg. repeat rewrite (js_or_truthy v _ Ht).
    unfold cleanContentV. rewrite Ht. simpl.
    destruct v; try reflexivity. exfalso. exact (Hs s eq_refl).
  - unfold getItemHeading. simpl negb. cbv iota zeta. rewrite Hg.
    repeat rewrite (js_or_truthy v _ Ht).
    unfold cleanContentV. rewrite Ht. simpl.
    destruct v; try reflexivity. exfalso. exact (Hs s eq_refl).
Qed.

Lemma item_accessors_throw_on_non_string_witness :
  getItemContent (JObj [("heading"%string, JStr (js "Cheetah")); ("content"%string, JNum 120)])
    = inr NotAFunction /\
  getItemHeading (JObj [("heading"%string, JNum 2020); ("content"%string, JStr (js "x"))])
    = inr NotAFunction.
Proof.
  split.
  - apply (proj1 item_accessors_throw_on_non_string _ (JNum 120)); [reflexivity|reflexivity|].
    intros t H; discriminate H.
  - apply (proj2 item_accessors_throw_on_non_string _ (JNum 2020)); [reflexivity|reflexivity|].
    intros t H; discriminate H.
Defined.
